(** * iota.crypto.types: seeds, signing keys and the key digest

    A shallow embedding of [src/iota/crypto/types.py] (classes [Seed] and
    [SigningKey]) and the properties of the key digest schedule.

    Python lists of trits are [list Z]; list indices, lengths and loop
    counters are [nat]; the integer argument of [Seed.random] is a [Z].
    Objects that outlive a call (tryte strings) live in a store indexed by
    object identity; sponges are created, used and dropped inside
    [get_digest_trits], and every operation on one is recorded in a trace. *)

From Stdlib Require Import String ZArith List Lia Bool Arith.
Import ListNotations.

Set Implicit Arguments.

(** ** Collaborators that are imported by the module *)

(** Modelled from the spec: [iota.crypto.HASH_LENGTH], imported by the module
    and not defined in it; the spec fixes the sponge output width at 243
    trits, and 27 of them make one block. *)
Definition HASH_LENGTH : nat := 243.

(** Modelled from the spec: the ternary buffer collaborator ([TryteString]).
    A tryte expands to 3 trits ([as_trits]) and a byte to 2 trytes
    ([from_bytes]); the tables themselves are not part of the module. *)
Class TernaryCodec := {
  tryte : Type;
  byte : Type;
  tryte_trits : tryte -> list Z;
  byte_trytes : byte -> list tryte;
  tryte_trits_length : forall t, length (tryte_trits t) = 3;
  byte_trytes_length : forall b, length (byte_trytes b) = 2
}.

(** Modelled from the spec: the sponge collaborator ([Curl]).  [Curl()] gives
    the state [curl_init]; [absorb] ingests a trit sequence; [squeeze] copies
    [curl_output], HASH_LENGTH trits of the state, into the caller's list and
    then moves the state on. *)
Class SpongeHash := {
  sponge_state : Type;
  curl_init : sponge_state;
  curl_absorb : sponge_state -> list Z -> sponge_state;
  curl_output : sponge_state -> list Z;
  curl_transform : sponge_state -> sponge_state;
  curl_output_length : forall s, length (curl_output s) = HASH_LENGTH
}.

(** ** Python list operations *)

(** [l[a:b]] for non-negative [a], [b]. *)
Definition slice {A} (l : list A) (a b : nat) : list A :=
  firstn (b - a) (skipn a l).

(** [l[a:b] = v] for non-negative [a], [b]: both bounds are clipped to the
    length of [l], and a stop before the start is moved to the start. *)
Definition slice_assign {A} (l : list A) (a b : nat) (v : list A) : list A :=
  firstn a l ++ v ++ skipn (Nat.max a b) l.

(** [chunks g s n] is the concatenation of [g s], ..., [g (s + n - 1)]. *)
Definition chunks {A} (g : nat -> list A) (s n : nat) : list A :=
  concat (map g (seq s n)).

(** ** Python numbers: [int(ceil(length / 2))] *)

Inductive exn :=
| ValueError (msg : string)
| OverflowError
| SourceError (e : string).

(** The double nearest to an integer: 53 significant bits, ties to even. *)
Definition round_to_double (n : Z) : Z :=
  let a := Z.abs n in
  if (a <? 2 ^ 53)%Z then n
  else
    let e := (Z.log2 a - 52)%Z in
    let q := Z.shiftr a e in
    let r := (a - Z.shiftl q e)%Z in
    let half := (2 ^ (e - 1))%Z in
    let q' := if (half <? r)%Z || ((r =? half)%Z && Z.odd q) then (q + 1)%Z else q in
    (Z.sgn n * Z.shiftl q' e)%Z.

(** [length / 2] under [from __future__ import division]: the correctly
    rounded double quotient.  Halving a double is exact, so the quotient is
    [round_to_double length / 2]; it is represented by its numerator.  A
    quotient beyond the largest double raises OverflowError. *)
Definition true_div_2 (length : Z) : exn + Z :=
  let x := round_to_double length in
  if (2 ^ 1025 <=? Z.abs x)%Z then inl OverflowError else inr x.

(** [int(ceil(x))] for the double [x = num / 2]. *)
Definition int_ceil_half (num : Z) : Z := ((num + 1) / 2)%Z.

(** ** A codec and a sponge that run

    The tryte alphabet by index (0 is '9', 1..26 are 'A'..'Z') with its
    balanced-ternary trits, bytes split as remainder and quotient by 27, and
    a sponge that keeps what it absorbed.  They instantiate the theorems
    below on concrete keys. *)

Definition balanced_trit (v : Z) : Z := ((v + 1) mod 3 - 1)%Z.

Definition index_trits (t : nat) : list Z :=
  let v := Z.of_nat t in
  let c1 := ((v + 1) / 3)%Z in
  let c2 := ((c1 + 1) / 3)%Z in
  [balanced_trit v; balanced_trit c1; balanced_trit c2].

Definition byte_indices (b : Byte.byte) : list nat :=
  let n := Byte.to_nat b in [n mod 27; n / 27].

Definition index_codec : TernaryCodec :=
  {| tryte := nat;
     byte := Byte.byte;
     tryte_trits := index_trits;
     byte_trytes := byte_indices;
     tryte_trits_length := fun _ => eq_refl;
     byte_trytes_length := fun _ => eq_refl |}.

Definition mirror_output (s : list Z) : list Z :=
  firstn HASH_LENGTH (map Z.opp (rev s) ++ repeat 1%Z HASH_LENGTH).

Definition mirror_sponge : SpongeHash :=
  {| sponge_state := list Z;
     curl_init := [];
     curl_absorb := fun s trits => s ++ trits;
     curl_output := mirror_output;
     curl_transform := fun s => s;
     curl_output_length := fun s =>
       eq_trans (length_firstn HASH_LENGTH _)
                (Nat.min_l _ _
                   (eq_ind_r (fun n => HASH_LENGTH <= n)
                      (eq_ind_r (fun n => HASH_LENGTH <= _ + n)
                         (Nat.le_add_l _ _) (repeat_length 1%Z HASH_LENGTH))
                      (length_app _ _))) |}.

(** ** The world: object store, sponge counter, trace *)

Inductive event :=
| Enew (id : nat)                (* sponge = Curl() *)
| Eabsorb (id : nat)             (* sponge.absorb(...) *)
| Esqueeze (id : nat)            (* sponge.squeeze(...) *)
| Esource (count : Z).           (* source(count) *)

Section Types.
Context {TC : TernaryCodec} {SH : SpongeHash}.

Record World := mkWorld {
  objects : nat -> list tryte;   (* [_trytes] of every tryte string object *)
  next_object : nat;
  next_sponge : nat;
  trace : list event
}.

Definition M (A : Type) : Type := World -> A * World.

Definition ret {A} (a : A) : M A := fun w => (a, w).

Definition bind {A B} (m : M A) (k : A -> M B) : M B :=
  fun w => let (a, w') := m w in k a w'.

Notation "x <- m ;; k" := (bind m (fun x => k))
  (at level 61, m at next level, right associativity).
Notation "' pat <- m ;; k" := (bind m (fun x => match x with pat => k end))
  (at level 61, pat pattern, m at next level, right associativity).

(** [for i in range(n)], the loop-carried variables threaded as [a]. *)
Fixpoint for_from {A} (start n : nat) (body : nat -> A -> M A) (a : A) : M A :=
  match n with
  | O => ret a
  | S n' => a' <- body start a ;; for_from (S start) n' body a'
  end.

Definition for_range {A} (n : nat) (body : nat -> A -> M A) (a : A) : M A :=
  for_from 0 n body a.

Definition log (e : event) : M unit :=
  fun w => (tt, mkWorld (objects w) (next_object w) (next_sponge w) (trace w ++ [e])).

(** *** TryteString *)

(** Modelled from the spec: [TryteString.__init__], which is not part of the
    module; a new object holding [trytes]. *)
Definition TryteString_init (trytes : list tryte) : M nat :=
  fun w =>
    let self := next_object w in
    (self, mkWorld (fun o => if Nat.eqb o self then trytes else objects w o)
                   (S self) (next_sponge w) (trace w)).

(** Modelled from the spec: [len(self)] and [len(self._trytes)], the length
    query of the ternary buffer. *)
Definition len (self : nat) : M nat :=
  fun w => (length (objects w self), w).

(** Modelled from the spec: [self.as_trits()], a new list with three trits
    per tryte. *)
Definition as_trits (self : nat) : M (list Z) :=
  fun w => (flat_map tryte_trits (objects w self), w).

(** Modelled from the spec: [cls.from_bytes(bytes_)], a new object with two
    trytes per byte. *)
Definition from_bytes (bytes_ : list byte) : M nat :=
  TryteString_init (flat_map byte_trytes bytes_).

(** *** Curl *)

Record Sponge := mkSponge { sid : nat; sstate : sponge_state }.

(** Modelled from the spec: [Curl()], a sponge of a new identity in its
    initial state. *)
Definition Curl : M Sponge :=
  fun w =>
    let id := next_sponge w in
    (mkSponge id curl_init,
     mkWorld (objects w) (next_object w) (S id) (trace w ++ [Enew id])).

(** Modelled from the spec: [sponge.absorb(trits)] reads [trits] and
    changes the sponge only. *)
Definition absorb (sponge : Sponge) (trits : list Z) : M Sponge :=
  _ <- log (Eabsorb (sid sponge)) ;;
  ret (mkSponge (sid sponge) (curl_absorb (sstate sponge) trits)).

(** Modelled from the spec: [sponge.squeeze(trits)] fills the list it is
    given, [trits[0:HASH_LENGTH] = output]; the result is the sponge and the
    new contents of that list. *)
Definition squeeze (sponge : Sponge) (trits : list Z) : M (Sponge * list Z) :=
  _ <- log (Esqueeze (sid sponge)) ;;
  ret (mkSponge (sid sponge) (curl_transform (sstate sponge)),
       slice_assign trits 0 HASH_LENGTH (curl_output (sstate sponge))).

(** *** Seed *)

(** [Seed.random(length, source)]. *)
Definition Seed_random (length : Z) (source : Z -> exn + list byte) : M (exn + nat) :=
  match true_div_2 length with
  | inl e => ret (inl e)
  | inr quotient =>
      let count := int_ceil_half quotient in
      _ <- log (Esource count) ;;
      match source count with
      | inl e => ret (inl e)
      | inr bytes_ => self <- from_bytes bytes_ ;; ret (inr self)
      end
  end.

(** *** SigningKey *)

Definition BLOCK_LEN : nat := 2187.

Definition BLOCK_LEN_message : string :=
  "Length of SigningKey values must be a multiple of 2187 trytes.".

(** [SigningKey.__init__]. *)
Definition SigningKey_init (trytes : list tryte) : M (exn + nat) :=
  self <- TryteString_init trytes ;;
  n <- len self ;;
  if negb (Nat.eqb (n mod BLOCK_LEN) 0)
  then ret (inl (ValueError BLOCK_LEN_message))
  else ret (inr self).

(** [SigningKey.block_count]. *)
Definition block_count (self : nat) : M nat :=
  n <- len self ;; ret (n / BLOCK_LEN).

(** The [for k in range(26)] loop. *)
Definition fragment_rounds (buffer : list Z) : M (list Z) :=
  for_range 26 (fun _ buffer =>
    sponge <- Curl ;;
    sponge <- absorb sponge buffer ;;
    '(_, buffer) <- squeeze sponge buffer ;;
    ret buffer) buffer.

(** The [for j in range(27)] loop; it carries [key_fragment] and [buffer]. *)
Definition block_fragments (block_trits key_fragment buffer : list Z)
  : M (list Z * list Z) :=
  for_range 27 (fun j '(key_fragment, _) =>
    let hash_start := j * HASH_LENGTH in
    let hash_end := hash_start + HASH_LENGTH in
    let buffer := slice block_trits hash_start hash_end in
    buffer <- fragment_rounds buffer ;;
    ret (slice_assign key_fragment hash_start hash_end buffer, buffer))
  (key_fragment, buffer).

(** One iteration of [for i in range(self.block_count)] up to the last
    squeeze: the value left in [buffer]. *)
Definition block_segment (block_size : nat) (block_trits : list Z) : M (list Z) :=
  let key_fragment := repeat 0%Z block_size in
  let buffer := [] in
  '(key_fragment, buffer) <- block_fragments block_trits key_fragment buffer ;;
  sponge <- Curl ;;
  sponge <- absorb sponge key_fragment ;;
  '(_, buffer) <- squeeze sponge buffer ;;
  ret buffer.

(** [SigningKey.get_digest_trits]. *)
Definition get_digest_trits (self : nat) : M (list Z) :=
  let block_size := BLOCK_LEN * 3 in
  raw_trits <- as_trits self ;;
  let digest := repeat 0%Z HASH_LENGTH in
  count <- block_count self ;;
  for_range count (fun i digest =>
    let block_start := i * block_size in
    let block_end := block_start + block_size in
    let block_trits := slice raw_trits block_start block_end in
    buffer <- block_segment block_size block_trits ;;
    ret (slice_assign digest block_start block_end buffer)) digest.

(** ** The values and the world changes of the loops

    What the monadic code above returns, and what it does to the world,
    written without the monad; the run lemmas below relate the two. *)

(** One sponge: [Curl()], one absorb of [input], one squeeze. *)
Definition sponge_hash (input : list Z) : list Z :=
  curl_output (curl_absorb curl_init input).

(** The list [buffer] after [Curl()], [absorb(input)], [squeeze(buffer)]. *)
Definition hash_into (input buffer : list Z) : list Z :=
  slice_assign buffer 0 HASH_LENGTH (sponge_hash input).

Definition sponge_life (id : nat) : list event :=
  [Enew id; Eabsorb id; Esqueeze id].

Definition use_sponge (w : World) : World :=
  mkWorld (objects w) (next_object w) (S (next_sponge w))
          (trace w ++ sponge_life (next_sponge w)).

(** The world after one block: 27 * 26 + 1 sponges later. *)
Definition block_world (w : World) : World :=
  Nat.iter (27 * 26 + 1) use_sponge w.

Definition rounds_value (buffer : list Z) : list Z :=
  Nat.iter 26 (fun buffer => hash_into buffer buffer) buffer.

Definition fragment_value (block_trits : list Z) (j : nat) : list Z :=
  rounds_value (slice block_trits (j * HASH_LENGTH) (j * HASH_LENGTH + HASH_LENGTH)).

Definition fragments_value (block_trits : list Z) (st : list Z * list Z)
  : list Z * list Z :=
  fold_left (fun (st : list Z * list Z) j =>
               let (key_fragment, _) := st in
               (slice_assign key_fragment (j * HASH_LENGTH)
                  (j * HASH_LENGTH + HASH_LENGTH) (fragment_value block_trits j),
                fragment_value block_trits j))
            (seq 0 27) st.

Definition segment_value (block_size : nat) (block_trits : list Z) : list Z :=
  let (key_fragment, buffer) :=
    fragments_value block_trits (repeat 0%Z block_size, []) in
  hash_into key_fragment buffer.

Definition digest_value (raw_trits : list Z) (count : nat) : list Z :=
  let block_size := BLOCK_LEN * 3 in
  fold_left (fun digest i =>
               slice_assign digest (i * block_size) (i * block_size + block_size)
                 (segment_value block_size
                    (slice raw_trits (i * block_size) (i * block_size + block_size))))
            (seq 0 count) (repeat 0%Z HASH_LENGTH).

(** ** The schedule in the words of the specification *)

(** Step 1: block [i] of the key's trits. *)
Definition spec_block (raw_trits : list Z) (i : nat) : list Z :=
  slice raw_trits (i * (BLOCK_LEN * 3)) ((i + 1) * (BLOCK_LEN * 3)).

(** Step 2: fragment [j] of a block. *)
Definition spec_fragment (block_trits : list Z) (j : nat) : list Z :=
  slice block_trits (j * HASH_LENGTH) ((j + 1) * HASH_LENGTH).

(** Step 3b: 26 chained rounds, each a fresh sponge that absorbs the buffer
    and whose HASH_LENGTH squeezed trits replace it. *)
Definition spec_rounds (buffer : list Z) : list Z :=
  Nat.iter 26 sponge_hash buffer.

(** Step 3c: the 27 buffers side by side. *)
Definition spec_key_fragment (block_trits : list Z) : list Z :=
  chunks (fun j => spec_rounds (spec_fragment block_trits j)) 0 27.

(** Step 4: one more fresh sponge over the whole key fragment. *)
Definition spec_block_digest (block_trits : list Z) : list Z :=
  sponge_hash (spec_key_fragment block_trits).

(** A world with no objects and no sponge made yet. *)
Definition empty_world : World := mkWorld (fun _ => []) 0 0 [].

(** The construction invariant of a signing key. *)
Definition valid_key (w : World) (self : nat) : Prop :=
  length (objects w self) mod BLOCK_LEN = 0.

End Types.

(** ** Keys that run

    Object 0 of [one_block_world] is a key of one block of '9' trytes;
    [two_key_world] holds that key, a block of 'A' trytes as object 1 and
    their concatenation as object 2; [short_key] is one tryte short of a
    block. *)

Definition nines_block : list nat := repeat 0 BLOCK_LEN.

Definition letters_block : list nat := repeat 1 BLOCK_LEN.

Definition short_key : list nat := repeat 0 (BLOCK_LEN - 1).

Definition one_block_world : @World index_codec :=
  snd (@SigningKey_init index_codec nines_block (@empty_world index_codec)).

Definition two_key_world : @World index_codec :=
  snd (@SigningKey_init index_codec (nines_block ++ letters_block)
         (snd (@SigningKey_init index_codec letters_block one_block_world))).

Definition no_block_world : @World index_codec :=
  snd (@SigningKey_init index_codec [] (@empty_world index_codec)).

(** An entropy source that answers every request with zero bytes. *)
Definition zero_source (count : Z) : exn + list Byte.byte :=
  inr (repeat Byte.x00 (Z.to_nat count)).

(** An entropy source that fails on every request. *)
Definition failing_source (count : Z) : exn + list Byte.byte :=
  inl (SourceError "no entropy").

(** [two_key_world] with one more key, object 3: the two-block key followed
    by the block of '9' trytes. *)
Definition three_block_world : @World index_codec :=
  snd (@SigningKey_init index_codec
         ((nines_block ++ letters_block) ++ nines_block) two_key_world).

(** ** Lists: slices, slice assignment, equal chunks *)

Section ListFacts.
Variable A : Type.
Implicit Types (l v pre mid post : list A) (g : nat -> list A).

Lemma slice_length_le l a b : length (slice l a b) <= b - a.
Proof. unfold slice. rewrite length_firstn. lia. Qed.

Lemma slice_length l a b : b <= length l -> length (slice l a b) = b - a.
Proof. intros Hb. unfold slice. rewrite length_firstn, length_skipn. lia. Qed.

Lemma slice_all l : slice l 0 (length l) = l.
Proof. unfold slice. rewrite Nat.sub_0_r. simpl. apply firstn_all. Qed.

Lemma slice_full l n : length l = n -> slice l 0 n = l.
Proof. intros <-. apply slice_all. Qed.

Lemma slice_middle pre mid post a b :
  a = length pre -> b = a + length mid -> slice (pre ++ mid ++ post) a b = mid.
Proof.
  intros -> ->. unfold slice.
  rewrite skipn_app, Nat.sub_diag, skipn_all. simpl.
  replace (length pre + length mid - length pre) with (length mid + 0) by lia.
  rewrite firstn_app_2. simpl. apply app_nil_r.
Qed.

Lemma slice_assign_over l b v : length l <= b -> slice_assign l 0 b v = v.
Proof.
  intros Hl. unfold slice_assign. simpl.
  rewrite skipn_all2 by lia. apply app_nil_r.
Qed.

Lemma slice_assign_append l a b v : length l <= a -> slice_assign l a b v = l ++ v.
Proof.
  intros Hl. unfold slice_assign.
  rewrite firstn_all2 by lia. rewrite skipn_all2 by lia.
  now rewrite app_nil_r.
Qed.

Lemma slice_assign_middle pre mid post a b v :
  a = length pre -> b = a + length mid ->
  slice_assign (pre ++ mid ++ post) a b v = pre ++ v ++ post.
Proof.
  intros -> ->. unfold slice_assign.
  rewrite firstn_app, Nat.sub_diag, firstn_all. simpl. rewrite app_nil_r.
  replace (Nat.max (length pre) (length pre + length mid))
    with (length pre + length mid) by lia.
  rewrite skipn_app, skipn_all2 by lia. simpl.
  replace (length pre + length mid - length pre) with (length mid) by lia.
  rewrite skipn_app, skipn_all, Nat.sub_diag. reflexivity.
Qed.

Lemma chunks_S g s n : chunks g s (S n) = chunks g s n ++ g (s + n).
Proof.
  unfold chunks. rewrite seq_S, map_app, concat_app. simpl.
  now rewrite app_nil_r.
Qed.

Lemma chunks_split g s n m : chunks g s (n + m) = chunks g s n ++ chunks g (s + n) m.
Proof. unfold chunks. now rewrite seq_app, map_app, concat_app. Qed.

Lemma chunks_length g h s n :
  (forall j, length (g j) = h) -> length (chunks g s n) = n * h.
Proof.
  intros Hg. induction n as [|n IH].
  - reflexivity.
  - rewrite chunks_S, length_app, IH, Hg. lia.
Qed.

Lemma chunks_slice g h n i :
  (forall j, length (g j) = h) -> i < n ->
  slice (chunks g 0 n) (i * h) (S i * h) = g i.
Proof.
  intros Hg Hi.
  replace n with (i + (1 + (n - S i))) by lia.
  rewrite 2!chunks_split.
  replace (chunks g (0 + i) 1) with (g i)
    by (unfold chunks; simpl; now rewrite app_nil_r).
  apply slice_middle.
  - now rewrite chunks_length with (h := h).
  - rewrite Hg. lia.
Qed.

Lemma firstn_plus l a b : firstn (a + b) l = firstn a l ++ firstn b (skipn a l).
Proof.
  revert l. induction a as [|a IH]; intros [|x l]; simpl.
  - reflexivity.
  - reflexivity.
  - now rewrite firstn_nil.
  - now rewrite IH.
Qed.

(** The [n] consecutive slices of width [h] of a list of [n * h] elements
    make up the list. *)
Lemma chunks_of_slices l h n :
  length l = n * h ->
  chunks (fun j => slice l (j * h) ((j + 1) * h)) 0 n = l.
Proof.
  intros Hl.
  assert (P : forall m, m <= n ->
            chunks (fun j => slice l (j * h) ((j + 1) * h)) 0 m = firstn (m * h) l).
  { induction m as [|m IH]; intros Hm.
    - reflexivity.
    - rewrite chunks_S, IH by lia. simpl (0 + m). unfold slice.
      replace ((m + 1) * h - m * h) with h by lia.
      replace (S m * h) with (m * h + h) by lia.
      now rewrite firstn_plus. }
  rewrite P by lia. rewrite <- Hl. apply firstn_all.
Qed.

Lemma slice_app_l l1 l2 n : length l1 = n -> slice (l1 ++ l2) 0 n = l1.
Proof.
  intros <-. apply (slice_middle [] l1 l2); reflexivity.
Qed.

Lemma slice_app_r l1 l2 n m :
  length l1 = n -> length l2 = m -> slice (l1 ++ l2) n (n + m) = l2.
Proof.
  intros <- <-. rewrite <- (app_nil_r l2) at 1.
  now apply slice_middle.
Qed.

Lemma chunks_two g : chunks g 0 2 = g 0 ++ g 1.
Proof. unfold chunks. simpl. now rewrite app_nil_r. Qed.

Lemma chunks_one g : chunks g 0 1 = g 0.
Proof. unfold chunks. simpl. now rewrite app_nil_r. Qed.

Lemma chunks_ext g g' s n :
  (forall j, s <= j < s + n -> g j = g' j) -> chunks g s n = chunks g' s n.
Proof.
  intros E. unfold chunks. f_equal. apply map_ext_in.
  intros j Hj. apply in_seq in Hj. now apply E.
Qed.

(** Writing chunk after chunk into a pre-sized list leaves the chunks in
    order, followed by what is left of the initial filling. *)
Lemma fill_chunks (z : A) g h N n :
  (forall j, length (g j) = h) -> n <= N ->
  fold_left (fun kf j => slice_assign kf (j * h) (j * h + h) (g j))
            (seq 0 n) (repeat z (N * h))
  = chunks g 0 n ++ repeat z ((N - n) * h).
Proof.
  intros Hg. induction n as [|n IH]; intros Hn.
  - simpl. now rewrite Nat.sub_0_r.
  - rewrite seq_S, fold_left_app, IH by lia. simpl.
    replace ((N - n) * h) with (h + (N - S n) * h) by nia.
    rewrite repeat_app, chunks_S, <- app_assoc.
    apply slice_assign_middle.
    + now rewrite chunks_length with (h := h).
    + rewrite repeat_length. lia.
Qed.

(** Python's clipping makes [d[i*bs : i*bs+bs] = s i] an append as soon as
    the list is no longer than [i*bs]; the first write replaces the whole
    initial list. *)
Lemma append_chunks (d0 : list A) g h bs n :
  (forall j, length (g j) = h) -> h <= bs -> length d0 <= bs ->
  fold_left (fun d i => slice_assign d (i * bs) (i * bs + bs) (g i))
            (seq 0 (S n)) d0
  = chunks g 0 (S n).
Proof.
  intros Hg Hh Hd. induction n as [|n IH].
  - simpl. rewrite slice_assign_over by lia.
    unfold chunks. simpl. now rewrite app_nil_r.
  - rewrite seq_S, fold_left_app, IH. simpl.
    rewrite slice_assign_append.
    + now rewrite (chunks_S g 0 (S n)).
    + rewrite chunks_length with (h := h) by assumption. nia.
Qed.

Lemma fold_left_const_index (f : A -> A) s n a :
  fold_left (fun x (_ : nat) => f x) (seq s n) a = Nat.iter n f a.
Proof.
  revert s a. induction n as [|n IH]; intros s a.
  - reflexivity.
  - rewrite seq_S, fold_left_app, IH. reflexivity.
Qed.

End ListFacts.

(** ** Running the loops *)

Section Runs.
Context {TC : TernaryCodec} {SH : SpongeHash}.

Local Notation "x <- m ;; k" := (bind m (fun x => k))
  (at level 61, m at next level, right associativity).
Local Notation "' pat <- m ;; k" := (bind m (fun x => match x with pat => k end))
  (at level 61, pat pattern, m at next level, right associativity).

Lemma iter_shift A (g : A -> A) n x : Nat.iter n g (g x) = g (Nat.iter n g x).
Proof. induction n as [|n IH]; simpl; [reflexivity | now rewrite IH]. Qed.

Lemma iter_plus A (g : A -> A) n m x :
  Nat.iter (n + m) g x = Nat.iter n g (Nat.iter m g x).
Proof. induction n as [|n IH]; simpl; [reflexivity | now rewrite IH]. Qed.

Lemma iter_plus_one A (g : A -> A) n x :
  Nat.iter (n + 1) g x = g (Nat.iter n g x).
Proof. rewrite Nat.add_comm. reflexivity. Qed.

Lemma iter_iter A (g : A -> A) n m x :
  Nat.iter n (Nat.iter m g) x = Nat.iter (n * m) g x.
Proof.
  induction n as [|n IH]; simpl.
  - reflexivity.
  - now rewrite IH, iter_plus.
Qed.

(** A loop whose body computes [f i a] and changes the world by [g],
    whatever [i] and [a] are, is a fold for the value and an iteration of
    [g] for the world. *)
Lemma for_from_run A (f : nat -> A -> A) (g : World -> World)
      (body : nat -> A -> M A) :
  (forall i a w, body i a w = (f i a, g w)) ->
  forall n s a w,
    for_from s n body a w
    = (fold_left (fun a i => f i a) (seq s n) a, Nat.iter n g w).
Proof.
  intros Hbody. induction n as [|n IH]; intros s a w.
  - reflexivity.
  - cbn [for_from seq fold_left]. unfold bind. rewrite Hbody, IH.
    now rewrite iter_shift.
Qed.

Lemma one_sponge_run input buffer w :
  (sponge <- Curl ;;
   sponge <- absorb sponge input ;;
   '(_, buffer) <- squeeze sponge buffer ;;
   ret buffer) w
  = (hash_into input buffer, use_sponge w).
Proof.
  unfold bind, Curl, absorb, squeeze, log, ret, bind, use_sponge, sponge_life,
    hash_into, sponge_hash.
  cbn [sid sstate objects next_object next_sponge trace].
  now rewrite <- !app_assoc.
Qed.

Lemma fragment_rounds_run buffer w :
  fragment_rounds buffer w = (rounds_value buffer, Nat.iter 26 use_sponge w).
Proof.
  unfold fragment_rounds, for_range.
  rewrite for_from_run
    with (f := fun (_ : nat) b => hash_into b b) (g := use_sponge)
    by (intros; apply one_sponge_run).
  rewrite fold_left_const_index. unfold rounds_value. reflexivity.
Qed.

Lemma block_fragments_run block_trits key_fragment buffer w :
  block_fragments block_trits key_fragment buffer w
  = (fragments_value block_trits (key_fragment, buffer),
     Nat.iter 27 (Nat.iter 26 use_sponge) w).
Proof.
  unfold block_fragments, for_range, fragments_value.
  apply for_from_run
    with (f := fun j (st : list Z * list Z) =>
                 let (key_fragment, _) := st in
                 (slice_assign key_fragment (j * HASH_LENGTH)
                    (j * HASH_LENGTH + HASH_LENGTH) (fragment_value block_trits j),
                  fragment_value block_trits j)).
  intros j [kf b] w'. unfold bind. rewrite fragment_rounds_run.
  unfold fragment_value, ret. reflexivity.
Qed.

Lemma block_segment_run block_size block_trits w :
  block_segment block_size block_trits w
  = (segment_value block_size block_trits, block_world w).
Proof.
  unfold block_segment, segment_value. unfold bind at 1.
  rewrite block_fragments_run.
  destruct (fragments_value block_trits (repeat 0%Z block_size, [])) as [kf b].
  rewrite one_sponge_run.
  unfold block_world. rewrite iter_plus_one, <- iter_iter. reflexivity.
Qed.

Lemma get_digest_trits_run self w :
  get_digest_trits self w
  = (digest_value (flat_map tryte_trits (objects w self))
                  (length (objects w self) / BLOCK_LEN),
     Nat.iter (length (objects w self) / BLOCK_LEN) block_world w).
Proof.
  cbv [get_digest_trits as_trits block_count len bind ret for_range digest_value].
  apply for_from_run
    with (f := fun i digest =>
                 slice_assign digest (i * (BLOCK_LEN * 3))
                   (i * (BLOCK_LEN * 3) + BLOCK_LEN * 3)
                   (segment_value (BLOCK_LEN * 3)
                      (slice (flat_map tryte_trits (objects w self))
                         (i * (BLOCK_LEN * 3))
                         (i * (BLOCK_LEN * 3) + BLOCK_LEN * 3)))).
  intros i d w'. unfold bind. rewrite block_segment_run. reflexivity.
Qed.

(** *** The world after [n] sponges *)

Lemma use_sponge_iter n w :
  Nat.iter n use_sponge w
  = mkWorld (objects w) (next_object w) (next_sponge w + n)
            (trace w ++ flat_map sponge_life (seq (next_sponge w) n)).
Proof.
  induction n as [|n IH].
  - destruct w. cbn. now rewrite Nat.add_0_r, app_nil_r.
  - change (Nat.iter (S n) use_sponge w) with (use_sponge (Nat.iter n use_sponge w)).
    rewrite IH. unfold use_sponge.
    cbn [objects next_object next_sponge trace].
    rewrite seq_S, flat_map_app, <- app_assoc, Nat.add_succ_r.
    cbn [flat_map]. now rewrite app_nil_r.
Qed.

Lemma block_world_iter n w :
  Nat.iter n block_world w = Nat.iter (n * (27 * 26 + 1)) use_sponge w.
Proof. unfold block_world. apply iter_iter. Qed.

End Runs.

(** ** The values of the loops against the schedule *)

Section Values.
Context {TC : TernaryCodec} {SH : SpongeHash}.

Lemma block_size_fragments : BLOCK_LEN * 3 = 27 * HASH_LENGTH.
Proof. reflexivity. Qed.

Lemma sponge_hash_length input : length (sponge_hash input) = HASH_LENGTH.
Proof. apply curl_output_length. Qed.

(** Squeezing into a list of at most HASH_LENGTH trits leaves exactly the
    squeezed trits. *)
Lemma hash_into_short input buffer :
  length buffer <= HASH_LENGTH -> hash_into input buffer = sponge_hash input.
Proof. intros Hb. unfold hash_into. now apply slice_assign_over. Qed.

Lemma iter_sponge_hash_length n buffer :
  length buffer <= HASH_LENGTH ->
  length (Nat.iter n sponge_hash buffer) <= HASH_LENGTH.
Proof.
  intros Hb. destruct n as [|n].
  - exact Hb.
  - change (Nat.iter (S n) sponge_hash buffer)
      with (sponge_hash (Nat.iter n sponge_hash buffer)).
    rewrite sponge_hash_length. apply Nat.le_refl.
Qed.

Lemma iter_hash_into n buffer :
  length buffer <= HASH_LENGTH ->
  Nat.iter n (fun b => hash_into b b) buffer = Nat.iter n sponge_hash buffer.
Proof.
  intros Hb. induction n as [|n IH].
  - reflexivity.
  - change (Nat.iter (S n) (fun b => hash_into b b) buffer)
      with (hash_into (Nat.iter n (fun b => hash_into b b) buffer)
                      (Nat.iter n (fun b => hash_into b b) buffer)).
    rewrite IH. rewrite hash_into_short by now apply iter_sponge_hash_length.
    reflexivity.
Qed.

Lemma rounds_value_spec buffer :
  length buffer <= HASH_LENGTH -> rounds_value buffer = spec_rounds buffer.
Proof. intros Hb. unfold rounds_value, spec_rounds. now apply iter_hash_into. Qed.

Lemma spec_rounds_length buffer : length (spec_rounds buffer) = HASH_LENGTH.
Proof.
  unfold spec_rounds.
  change (Nat.iter 26 sponge_hash buffer)
    with (sponge_hash (Nat.iter 25 sponge_hash buffer)).
  apply sponge_hash_length.
Qed.

Lemma fragment_value_spec block_trits j :
  fragment_value block_trits j = spec_rounds (spec_fragment block_trits j).
Proof.
  unfold fragment_value, spec_fragment.
  replace ((j + 1) * HASH_LENGTH) with (j * HASH_LENGTH + HASH_LENGTH) by lia.
  apply rounds_value_spec.
  etransitivity; [apply slice_length_le | lia].
Qed.

Lemma fragment_value_length block_trits j :
  length (fragment_value block_trits j) = HASH_LENGTH.
Proof. rewrite fragment_value_spec. apply spec_rounds_length. Qed.

(** A loop that carries a pair and overwrites its second component. *)
Lemma fold_left_pair A B (F : A -> nat -> A) (g : nat -> B) n a b :
  fold_left (fun (st : A * B) j => let (x, _) := st in (F x j, g j))
            (seq 0 (S n)) (a, b)
  = (fold_left F (seq 0 (S n)) a, g n).
Proof.
  induction n as [|n IH].
  - reflexivity.
  - rewrite seq_S, fold_left_app, IH, (fold_left_app F). reflexivity.
Qed.

Lemma fragments_value_spec block_trits buffer :
  fragments_value block_trits (repeat 0%Z (BLOCK_LEN * 3), buffer)
  = (spec_key_fragment block_trits, spec_rounds (spec_fragment block_trits 26)).
Proof.
  unfold fragments_value.
  rewrite fold_left_pair
    with (F := fun kf j =>
                 slice_assign kf (j * HASH_LENGTH) (j * HASH_LENGTH + HASH_LENGTH)
                   (fragment_value block_trits j))
         (g := fragment_value block_trits).
  rewrite block_size_fragments.
  rewrite fill_chunks with (g := fragment_value block_trits) (h := HASH_LENGTH)
    by (try apply fragment_value_length; apply Nat.le_refl).
  rewrite Nat.sub_diag. cbn [Nat.mul repeat]. rewrite app_nil_r.
  rewrite fragment_value_spec. f_equal.
  unfold spec_key_fragment. apply chunks_ext.
  intros j _. apply fragment_value_spec.
Qed.

Lemma segment_value_spec block_trits :
  segment_value (BLOCK_LEN * 3) block_trits = spec_block_digest block_trits.
Proof.
  unfold segment_value. rewrite fragments_value_spec.
  unfold spec_block_digest. apply hash_into_short.
  rewrite spec_rounds_length. apply Nat.le_refl.
Qed.

Lemma spec_block_digest_length block_trits :
  length (spec_block_digest block_trits) = HASH_LENGTH.
Proof. apply sponge_hash_length. Qed.

Lemma digest_value_zero raw_trits :
  digest_value raw_trits 0 = repeat 0%Z HASH_LENGTH.
Proof. reflexivity. Qed.

Lemma digest_value_spec raw_trits count :
  1 <= count ->
  digest_value raw_trits count
  = chunks (fun i => spec_block_digest (spec_block raw_trits i)) 0 count.
Proof.
  intros Hc. destruct count as [|n]; [lia|].
  unfold digest_value.
  rewrite append_chunks
    with (g := fun i =>
                 segment_value (BLOCK_LEN * 3)
                   (slice raw_trits (i * (BLOCK_LEN * 3))
                      (i * (BLOCK_LEN * 3) + BLOCK_LEN * 3)))
         (h := HASH_LENGTH).
  - apply chunks_ext. intros i _. rewrite segment_value_spec.
    unfold spec_block.
    replace ((i + 1) * (BLOCK_LEN * 3))
      with (i * (BLOCK_LEN * 3) + BLOCK_LEN * 3) by lia.
    reflexivity.
  - intros j. rewrite segment_value_spec. apply spec_block_digest_length.
  - rewrite block_size_fragments. lia.
  - rewrite repeat_length, block_size_fragments. lia.
Qed.

Lemma spec_key_fragment_length block_trits :
  length (spec_key_fragment block_trits) = BLOCK_LEN * 3.
Proof.
  unfold spec_key_fragment.
  rewrite chunks_length with (h := HASH_LENGTH)
    by (intros; apply spec_rounds_length).
  symmetry. apply block_size_fragments.
Qed.

Lemma as_trits_length (trytes : list tryte) :
  length (flat_map tryte_trits trytes) = 3 * length trytes.
Proof.
  induction trytes as [|t ts IH]; simpl.
  - reflexivity.
  - rewrite length_app, tryte_trits_length, IH. lia.
Qed.

End Values.

(** ** The digest of a signing key *)

Section Digest.
Context {TC : TernaryCodec} {SH : SpongeHash}.

Lemma block_count_run self w :
  block_count self w = (length (objects w self) / BLOCK_LEN, w).
Proof. reflexivity. Qed.

Lemma valid_key_trits w self :
  valid_key w self ->
  length (flat_map tryte_trits (objects w self))
  = length (objects w self) / BLOCK_LEN * (BLOCK_LEN * 3).
Proof.
  unfold valid_key. intros Hv. rewrite as_trits_length.
  pose proof (Nat.div_mod_eq (length (objects w self)) BLOCK_LEN) as E.
  rewrite Hv in E. nia.
Qed.

Lemma spec_block_length raw_trits count i :
  length raw_trits = count * (BLOCK_LEN * 3) -> i < count ->
  length (spec_block raw_trits i) = BLOCK_LEN * 3.
Proof.
  intros Hl Hi. unfold spec_block. rewrite slice_length; unfold BLOCK_LEN in *; nia.
Qed.

Lemma spec_fragment_length block_trits j :
  length block_trits = BLOCK_LEN * 3 -> j < 27 ->
  length (spec_fragment block_trits j) = HASH_LENGTH.
Proof.
  intros Hl Hj. unfold spec_fragment.
  rewrite slice_length; unfold BLOCK_LEN, HASH_LENGTH in *; lia.
Qed.

Lemma get_digest_trits_value self w :
  fst (get_digest_trits self w)
  = digest_value (flat_map tryte_trits (objects w self))
                 (length (objects w self) / BLOCK_LEN).
Proof. now rewrite get_digest_trits_run. Qed.

Lemma get_digest_trits_world self w :
  snd (get_digest_trits self w)
  = Nat.iter (length (objects w self) / BLOCK_LEN * (27 * 26 + 1)) use_sponge w.
Proof. rewrite get_digest_trits_run. cbn [snd]. apply block_world_iter. Qed.

(** C1: for a valid key and a block [i] below its block count, the block
    has block_size trits and splits into 27 contiguous fragments of
    HASH_LENGTH trits; the key fragment of the schedule holds, at positions
    j*HASH_LENGTH..(j+1)*HASH_LENGTH, fragment [j] after 26 chained rounds of
    a fresh sponge each; and the trits of the returned digest at
    i*HASH_LENGTH..(i+1)*HASH_LENGTH are what one more fresh sponge squeezes
    after absorbing that whole key fragment. *)
Theorem get_digest_trits_schedule self w i :
  valid_key w self ->
  i < fst (block_count self w) ->
  let block_trits := spec_block (fst (as_trits self w)) i in
  let digest := fst (get_digest_trits self w) in
  length block_trits = BLOCK_LEN * 3 /\
  chunks (spec_fragment block_trits) 0 27 = block_trits /\
  (forall j, j < 27 -> length (spec_fragment block_trits j) = HASH_LENGTH) /\
  length (spec_key_fragment block_trits) = BLOCK_LEN * 3 /\
  (forall j, j < 27 ->
     slice (spec_key_fragment block_trits) (j * HASH_LENGTH) ((j + 1) * HASH_LENGTH)
     = Nat.iter 26 (fun buffer => curl_output (curl_absorb curl_init buffer))
                (spec_fragment block_trits j)) /\
  slice digest (i * HASH_LENGTH) ((i + 1) * HASH_LENGTH)
  = curl_output (curl_absorb curl_init (spec_key_fragment block_trits)).
Proof.
  intros Hv Hi block_trits digest.
  rewrite block_count_run in Hi. cbn [fst] in Hi.
  assert (Hb : length block_trits = BLOCK_LEN * 3).
  { apply spec_block_length with (count := length (objects w self) / BLOCK_LEN).
    - now apply valid_key_trits.
    - exact Hi. }
  split; [exact Hb|].
  split.
  { unfold spec_fragment. apply chunks_of_slices.
    rewrite Hb. apply block_size_fragments. }
  split; [intros j Hj; now apply spec_fragment_length|].
  split; [apply spec_key_fragment_length|].
  split.
  - intros j Hj. unfold spec_key_fragment.
    replace ((j + 1) * HASH_LENGTH) with (S j * HASH_LENGTH) by lia.
    rewrite chunks_slice with (h := HASH_LENGTH).
    + reflexivity.
    + intros; apply spec_rounds_length.
    + exact Hj.
  - unfold digest. rewrite get_digest_trits_value.
    rewrite digest_value_spec by lia.
    replace ((i + 1) * HASH_LENGTH) with (S i * HASH_LENGTH) by lia.
    rewrite chunks_slice with (h := HASH_LENGTH).
    + reflexivity.
    + intros; apply spec_block_digest_length.
    + exact Hi.
Qed.

(** C2, amended: for a valid key with at least one block the returned list
    has block_count * HASH_LENGTH trits, and for a key of no block it has
    HASH_LENGTH trits; the trits at i*HASH_LENGTH..(i+1)*HASH_LENGTH are the
    buffer that the iteration for block [i] leaves, the segments following
    each other in block order. *)
Theorem get_digest_trits_layout self w :
  valid_key w self ->
  let count := fst (block_count self w) in
  let raw_trits := fst (as_trits self w) in
  let block_size := BLOCK_LEN * 3 in
  let digest := fst (get_digest_trits self w) in
  (count = 0 -> length digest = HASH_LENGTH) /\
  (1 <= count -> length digest = count * HASH_LENGTH) /\
  (forall i w', i < count ->
     slice digest (i * HASH_LENGTH) ((i + 1) * HASH_LENGTH)
     = fst (block_segment block_size
              (slice raw_trits (i * block_size) (i * block_size + block_size)) w')).
Proof.
  intros Hv count raw_trits block_size digest.
  unfold count, digest. rewrite block_count_run, get_digest_trits_value. cbn [fst].
  split; [|split].
  - intros ->. rewrite digest_value_zero. apply repeat_length.
  - intros Hc. rewrite digest_value_spec by exact Hc.
    apply chunks_length. intros; apply spec_block_digest_length.
  - intros i w' Hi. rewrite digest_value_spec by lia.
    replace ((i + 1) * HASH_LENGTH) with (S i * HASH_LENGTH) by lia.
    rewrite chunks_slice with (h := HASH_LENGTH);
      [| intros; apply spec_block_digest_length | exact Hi].
    rewrite block_segment_run. cbn [fst]. unfold block_size.
    rewrite segment_value_spec. unfold spec_block, raw_trits, as_trits. cbn [fst].
    replace ((i + 1) * (BLOCK_LEN * 3))
      with (i * (BLOCK_LEN * 3) + BLOCK_LEN * 3) by lia.
    reflexivity.
Qed.

(** C4: the digest of the key made of two single-block keys [a] and [b] is
    the digest of [a] followed by the digest of [b]; its first HASH_LENGTH
    trits are the digest of [a] and its second HASH_LENGTH trits the digest
    of [b].  The two digests have HASH_LENGTH trits each and the digest of
    the joined key 2 * HASH_LENGTH; the joined key is a valid key of two
    blocks, the two parts valid keys of one block. *)
Theorem get_digest_trits_concat a b ab wa wb wab :
  length (objects wa a) = BLOCK_LEN ->
  length (objects wb b) = BLOCK_LEN ->
  objects wab ab = objects wa a ++ objects wb b ->
  let digest := fst (get_digest_trits ab wab) in
  digest = fst (get_digest_trits a wa) ++ fst (get_digest_trits b wb) /\
  slice digest 0 HASH_LENGTH = fst (get_digest_trits a wa) /\
  slice digest HASH_LENGTH (2 * HASH_LENGTH) = fst (get_digest_trits b wb) /\
  length (fst (get_digest_trits a wa)) = HASH_LENGTH /\
  length (fst (get_digest_trits b wb)) = HASH_LENGTH /\
  length digest = 2 * HASH_LENGTH /\
  (valid_key wa a /\ fst (block_count a wa) = 1) /\
  (valid_key wb b /\ fst (block_count b wb) = 1) /\
  (valid_key wab ab /\ fst (block_count ab wab) = 2).
Proof.
  intros Ha Hb Hab digest.
  assert (Hra : length (flat_map tryte_trits (objects wa a)) = BLOCK_LEN * 3)
    by (rewrite as_trits_length; lia).
  assert (Hrb : length (flat_map tryte_trits (objects wb b)) = BLOCK_LEN * 3)
    by (rewrite as_trits_length; lia).
  assert (E : digest = fst (get_digest_trits a wa) ++ fst (get_digest_trits b wb)).
  { unfold digest. rewrite !get_digest_trits_value.
    rewrite Hab, length_app, Ha, Hb, flat_map_app.
    replace ((BLOCK_LEN + BLOCK_LEN) / BLOCK_LEN) with 2 by reflexivity.
    replace (BLOCK_LEN / BLOCK_LEN) with 1 by reflexivity.
    rewrite !digest_value_spec by lia.
    rewrite chunks_two, !chunks_one. unfold spec_block.
    replace (0 * (BLOCK_LEN * 3)) with 0 by reflexivity.
    replace ((0 + 1) * (BLOCK_LEN * 3)) with (BLOCK_LEN * 3) by lia.
    replace (1 * (BLOCK_LEN * 3)) with (BLOCK_LEN * 3) by lia.
    replace ((1 + 1) * (BLOCK_LEN * 3)) with (BLOCK_LEN * 3 + BLOCK_LEN * 3) by lia.
    rewrite slice_app_l by exact Hra.
    rewrite slice_app_r by assumption.
    rewrite (slice_full _ Hra), (slice_full _ Hrb). reflexivity. }
  assert (La : length (fst (get_digest_trits a wa)) = HASH_LENGTH).
  { rewrite get_digest_trits_value, Ha.
    replace (BLOCK_LEN / BLOCK_LEN) with 1 by reflexivity.
    rewrite digest_value_spec, chunks_one by lia. apply spec_block_digest_length. }
  assert (Lb : length (fst (get_digest_trits b wb)) = HASH_LENGTH).
  { rewrite get_digest_trits_value, Hb.
    replace (BLOCK_LEN / BLOCK_LEN) with 1 by reflexivity.
    rewrite digest_value_spec, chunks_one by lia. apply spec_block_digest_length. }
  split; [exact E|]. rewrite E.
  split; [now apply slice_app_l|].
  split.
  { replace (2 * HASH_LENGTH) with (HASH_LENGTH + HASH_LENGTH) by lia.
    now apply slice_app_r. }
  split; [exact La|]. split; [exact Lb|].
  split; [rewrite length_app, La, Lb; lia|].
  rewrite !block_count_run. unfold valid_key. cbn [fst].
  rewrite Hab, length_app, Ha, Hb.
  repeat split; reflexivity.
Qed.

(** C5: two calls on keys with the same trit content return the same digest,
    whatever the two worlds they run in (other objects, sponges made before,
    events recorded before) and whichever objects hold the keys. *)
Theorem get_digest_trits_deterministic k1 k2 w1 w2 :
  fst (as_trits k1 w1) = fst (as_trits k2 w2) ->
  fst (get_digest_trits k1 w1) = fst (get_digest_trits k2 w2).
Proof.
  unfold as_trits. cbn [fst]. intros E.
  rewrite !get_digest_trits_value, E.
  assert (L : length (objects w1 k1) = length (objects w2 k2)).
  { apply (f_equal (@length Z)) in E. rewrite !as_trits_length in E. lia. }
  now rewrite L.
Qed.

(** C8: the call returns (the function is total), and the events it adds to
    the trace are, for block_count * (27 * 26 + 1) sponges with consecutive
    new identities, one creation, one absorb and one squeeze of that sponge,
    in this order and nothing else. *)
Theorem get_digest_trits_sponges self w :
  let count := fst (block_count self w) in
  let w' := snd (get_digest_trits self w) in
  next_sponge w' = next_sponge w + count * (27 * 26 + 1) /\
  trace w'
  = trace w ++ flat_map (fun id => [Enew id; Eabsorb id; Esqueeze id])
                        (seq (next_sponge w) (count * (27 * 26 + 1))).
Proof.
  intros count w'. unfold count, w'.
  rewrite block_count_run, get_digest_trits_world, use_sponge_iter.
  cbn [fst next_sponge trace]. split; reflexivity.
Qed.

(** C10: the call leaves every tryte string object, the key among them, as
    it was, and a second call on the key returns the same digest. *)
Theorem get_digest_trits_frame self w :
  let w' := snd (get_digest_trits self w) in
  objects w' = objects w /\
  next_object w' = next_object w /\
  fst (get_digest_trits self w') = fst (get_digest_trits self w).
Proof.
  intros w'.
  assert (O : objects w' = objects w).
  { unfold w'. now rewrite get_digest_trits_world, use_sponge_iter. }
  split; [exact O|]. split.
  - unfold w'. now rewrite get_digest_trits_world, use_sponge_iter.
  - rewrite !get_digest_trits_value. now rewrite O.
Qed.

End Digest.

(** ** Constructing a signing key *)

Section Construction.
Context {TC : TernaryCodec} {SH : SpongeHash}.

Lemma SigningKey_init_run trytes w :
  SigningKey_init trytes w
  = (if negb (length trytes mod BLOCK_LEN =? 0)
     then inl (ValueError BLOCK_LEN_message)
     else inr (next_object w),
     snd (TryteString_init trytes w)).
Proof.
  unfold SigningKey_init, bind, len, TryteString_init, ret.
  cbn [objects fst snd]. rewrite Nat.eqb_refl.
  destruct (negb (length trytes mod BLOCK_LEN =? 0)); reflexivity.
Qed.

Lemma TryteString_init_stored trytes w :
  objects (snd (TryteString_init trytes w)) (next_object w) = trytes.
Proof. unfold TryteString_init. cbn. now rewrite Nat.eqb_refl. Qed.

Lemma TryteString_init_others trytes w o :
  o <> next_object w -> objects (snd (TryteString_init trytes w)) o = objects w o.
Proof.
  intros Ho. unfold TryteString_init. cbn.
  apply Nat.eqb_neq in Ho. now rewrite Ho.
Qed.

Lemma trit_length_divisible (trytes : list tryte) :
  length (flat_map tryte_trits trytes) mod (BLOCK_LEN * 3) = 0
  <-> length trytes mod BLOCK_LEN = 0.
Proof.
  rewrite as_trits_length, (Nat.mul_comm 3), Nat.Div0.mul_mod_distr_r. lia.
Qed.

(** C3: construction raises its length error exactly when the trit length
    of the input is not a multiple of BLOCK_LEN * 3, which is when its tryte
    length is not a multiple of BLOCK_LEN; an input one tryte short of a
    block is refused; an input of a whole number of blocks gives a key that
    holds the input as it is, the other objects untouched. *)
Theorem SigningKey_init_validation trytes w :
  let trit_length := length (flat_map tryte_trits trytes) in
  let result := fst (SigningKey_init trytes w) in
  let w' := snd (SigningKey_init trytes w) in
  ((exists e, result = inl e) <-> trit_length mod (BLOCK_LEN * 3) <> 0) /\
  (result = inl (ValueError BLOCK_LEN_message)
   <-> trit_length mod (BLOCK_LEN * 3) <> 0) /\
  (trit_length mod (BLOCK_LEN * 3) <> 0 <-> length trytes mod BLOCK_LEN <> 0) /\
  (length trytes = BLOCK_LEN - 1 ->
   result = inl (ValueError BLOCK_LEN_message)) /\
  (length trytes mod BLOCK_LEN = 0 ->
   result = inr (next_object w) /\
   objects w' (next_object w) = trytes /\
   forall o, o <> next_object w -> objects w' o = objects w o).
Proof.
  intros trit_length result w'. unfold result, w', trit_length.
  rewrite SigningKey_init_run. cbn [fst snd].
  pose proof (trit_length_divisible trytes) as D.
  destruct (length trytes mod BLOCK_LEN =? 0) eqn:E; cbn [negb].
  - apply Nat.eqb_eq in E.
    split; [split; [intros [e He]; discriminate | tauto]|].
    split; [split; [discriminate | tauto]|].
    split; [tauto|].
    split.
    + intros Hl. rewrite Hl in E. discriminate E.
    + intros _. split; [reflexivity|]. split.
      * apply TryteString_init_stored.
      * intros o Ho. now apply TryteString_init_others.
  - apply Nat.eqb_neq in E.
    split; [split; [tauto | intros _; eexists; reflexivity]|].
    split; [split; [tauto | reflexivity]|].
    split; [tauto|].
    split; [reflexivity | tauto].
Qed.

(** C7: for a key that construction returned, block_count times BLOCK_LEN
    is its length in trytes, and the length leaves no remainder. *)
Theorem block_count_exact trytes w self :
  fst (SigningKey_init trytes w) = inr self ->
  let w' := snd (SigningKey_init trytes w) in
  fst (block_count self w') * BLOCK_LEN = fst (len self w') /\
  fst (len self w') mod BLOCK_LEN = 0 /\
  fst (len self w') = length trytes.
Proof.
  rewrite SigningKey_init_run. cbn [fst snd]. intros H.
  destruct (length trytes mod BLOCK_LEN =? 0) eqn:E; cbn [negb] in H;
    [|discriminate H].
  injection H as <-. apply Nat.eqb_eq in E.
  rewrite block_count_run. unfold len. cbn [fst].
  rewrite TryteString_init_stored.
  pose proof (Nat.div_mod_eq (length trytes) BLOCK_LEN) as D.
  split; [|split]; [nia | exact E | reflexivity].
Qed.

(** C9: constructing a key from no trytes succeeds; the key has no block,
    and its digest is the list of HASH_LENGTH zero trits that the digest
    starts from. *)
Theorem empty_key_digest w :
  let self := next_object w in
  let w' := snd (SigningKey_init [] w) in
  fst (SigningKey_init [] w) = inr self /\
  objects w' self = [] /\
  fst (block_count self w') = 0 /\
  fst (get_digest_trits self w') = repeat 0%Z HASH_LENGTH /\
  length (fst (get_digest_trits self w')) = HASH_LENGTH.
Proof.
  intros self w'. unfold self, w'. rewrite SigningKey_init_run. cbn [fst snd].
  pose proof (TryteString_init_stored [] w) as S.
  split; [reflexivity|]. split; [exact S|].
  rewrite block_count_run, get_digest_trits_value, S. cbn [fst length].
  replace (0 / BLOCK_LEN) with 0 by reflexivity.
  rewrite digest_value_zero.
  split; [reflexivity|]. split; [reflexivity | apply repeat_length].
Qed.

End Construction.

(** ** Random seeds *)

Section SeedRandom.
Context {TC : TernaryCodec} {SH : SpongeHash}.

Lemma from_bytes_length (bytes_ : list byte) :
  length (flat_map byte_trytes bytes_) = 2 * length bytes_.
Proof.
  induction bytes_ as [|b bs IH]; simpl.
  - reflexivity.
  - rewrite length_app, byte_trytes_length, IH. lia.
Qed.

(** Below 2^53 the double quotient is the exact quotient. *)
Lemma true_div_2_exact min_length :
  (Z.abs min_length < 2 ^ 53)%Z -> true_div_2 min_length = inr min_length.
Proof.
  intros Hl. unfold true_div_2, round_to_double.
  apply Z.ltb_lt in Hl. rewrite Hl. apply Z.ltb_lt in Hl.
  assert (B : (2 ^ 53 < 2 ^ 1025)%Z) by reflexivity.
  destruct (Z.leb_spec (2 ^ 1025) (Z.abs min_length)) as [H|H]; [lia | reflexivity].
Qed.

(** What a call does once the quotient and the answer of the source are
    known: one request, one new object with two trytes per byte. *)
Lemma Seed_random_run min_length source num bytes_ w :
  true_div_2 min_length = inr num ->
  source (int_ceil_half num) = inr bytes_ ->
  fst (Seed_random min_length source w) = inr (next_object w) /\
  trace (snd (Seed_random min_length source w))
  = trace w ++ [Esource (int_ceil_half num)] /\
  objects (snd (Seed_random min_length source w)) (next_object w)
  = flat_map byte_trytes bytes_.
Proof.
  intros Hq Hs. unfold Seed_random. rewrite Hq.
  unfold bind, log. rewrite Hs.
  unfold from_bytes, TryteString_init, ret.
  cbn [fst snd objects next_object next_sponge trace].
  rewrite Nat.eqb_refl. repeat split; reflexivity.
Qed.

(** X1: for a minimum length from 0 up to 2^53 - 1 and a source that answers a
    request with that many bytes, the call asks for ceil(min_length / 2)
    bytes and returns their expansion: 2 * ceil(min_length / 2) trytes, an
    even number that is at least min_length. *)
Lemma Seed_random_exact min_length source bytes_ w :
  (0 <= min_length < 2 ^ 53)%Z ->
  source ((min_length + 1) / 2)%Z = inr bytes_ ->
  Z.of_nat (length bytes_) = ((min_length + 1) / 2)%Z ->
  let seed := objects (snd (Seed_random min_length source w)) (next_object w) in
  fst (Seed_random min_length source w) = inr (next_object w) /\
  trace (snd (Seed_random min_length source w))
  = trace w ++ [Esource ((min_length + 1) / 2)%Z] /\
  seed = flat_map byte_trytes bytes_ /\
  Z.of_nat (length seed) = (2 * ((min_length + 1) / 2))%Z /\
  Nat.even (length seed) = true /\
  (min_length <= Z.of_nat (length seed))%Z.
Proof.
  intros Hl Hs Hn seed.
  destruct (@Seed_random_run min_length source min_length bytes_ w)
    as (R & T & O).
  - apply true_div_2_exact. lia.
  - exact Hs.
  - unfold seed. rewrite O, from_bytes_length.
    split; [exact R|]. split; [exact T|]. split; [reflexivity|].
    split; [lia|]. split.
    + rewrite Nat.even_mul. reflexivity.
    + pose proof (Z.div_mod (min_length + 1) 2) as D.
      pose proof (Z.mod_pos_bound (min_length + 1) 2) as P. lia.
Qed.

(** C6, at min_length = 2^53 + 1: the double quotient of 9007199254740993
    by 2 is 4503599627370496.0, so the source is asked for 2^52 bytes, one
    fewer than ceil(min_length / 2), and a source that answers with that many
    bytes leads to a seed of 2^53 trytes, fewer than min_length. *)
Theorem Seed_random_rounds_request source w :
  let min_length := (2 ^ 53 + 1)%Z in
  let w' := snd (Seed_random min_length source w) in
  trace w' = trace w ++ [Esource (2 ^ 52)%Z] /\
  ((min_length + 1) / 2 = 2 ^ 52 + 1)%Z /\
  (forall bytes_,
     source (2 ^ 52)%Z = inr bytes_ ->
     Z.of_nat (length bytes_) = (2 ^ 52)%Z ->
     Z.of_nat (length (objects w' (next_object w))) = (2 ^ 53)%Z /\
     (Z.of_nat (length (objects w' (next_object w))) < min_length)%Z).
Proof.
  intros min_length w'.
  assert (Q : true_div_2 min_length = inr (2 ^ 53)%Z) by (vm_compute; reflexivity).
  assert (C : int_ceil_half (2 ^ 53) = (2 ^ 52)%Z) by (vm_compute; reflexivity).
  split; [|split].
  - unfold w', Seed_random. rewrite Q, C. unfold bind, log.
    destruct (source (2 ^ 52)%Z) as [e|bytes_];
      unfold from_bytes, TryteString_init, ret; reflexivity.
  - vm_compute; reflexivity.
  - intros bytes_ Hs Hn.
    destruct (@Seed_random_run min_length source (2 ^ 53)%Z bytes_ w)
      as (_ & _ & O); [exact Q | now rewrite C |].
    unfold w'. rewrite O, from_bytes_length.
    assert (E : (2 ^ 53 = 2 * 2 ^ 52)%Z) by reflexivity.
    unfold min_length. lia.
Qed.

End SeedRandom.

(** ** The theorems on concrete keys *)

Section Examples.
#[local] Existing Instance index_codec.
#[local] Existing Instance mirror_sponge.

Example one_block_digest_runs :
  length (fst (get_digest_trits 0 one_block_world)) = 243 /\
  length (trace (snd (get_digest_trits 0 one_block_world))) = 3 * 703.
Proof. vm_compute. split; reflexivity. Qed.

Lemma get_digest_trits_schedule_witness :
  valid_key one_block_world 0 /\
  0 < fst (block_count 0 one_block_world) /\
  slice (fst (get_digest_trits 0 one_block_world))
        (0 * HASH_LENGTH) ((0 + 1) * HASH_LENGTH)
  = curl_output
      (curl_absorb curl_init
         (spec_key_fragment (spec_block (fst (as_trits 0 one_block_world)) 0))).
Proof.
  assert (Hv : valid_key one_block_world 0) by (vm_compute; reflexivity).
  assert (Hi : 0 < fst (block_count 0 one_block_world))
    by (vm_compute; apply le_n).
  split; [exact Hv|]. split; [exact Hi|].
  pose proof (get_digest_trits_schedule Hv Hi) as H. cbv zeta in H.
  destruct H as (_ & _ & _ & _ & _ & H). exact H.
Defined.

Lemma get_digest_trits_layout_witness :
  valid_key one_block_world 0 /\
  length (fst (get_digest_trits 0 one_block_world))
  = fst (block_count 0 one_block_world) * HASH_LENGTH.
Proof.
  assert (Hv : valid_key one_block_world 0) by (vm_compute; reflexivity).
  split; [exact Hv|].
  pose proof (get_digest_trits_layout Hv) as H. cbv zeta in H.
  destruct H as (_ & H & _). apply H. vm_compute. apply le_n.
Defined.

(** C2 as stated fails on the key of no tryte: construction accepts it, its
    block count is 0, and its digest has HASH_LENGTH trits, not 0. *)
Lemma get_digest_trits_length_no_block :
  fst (SigningKey_init [] empty_world) = inr 0 /\
  valid_key no_block_world 0 /\
  fst (block_count 0 no_block_world) * HASH_LENGTH = 0 /\
  length (fst (get_digest_trits 0 no_block_world)) = 243 /\
  length (fst (get_digest_trits 0 no_block_world))
  <> fst (block_count 0 no_block_world) * HASH_LENGTH.
Proof.
  split; [vm_compute; reflexivity|].
  split; [vm_compute; reflexivity|].
  split; [vm_compute; reflexivity|].
  split; [vm_compute; reflexivity|].
  vm_compute. discriminate.
Qed.

Lemma SigningKey_init_validation_witness :
  fst (SigningKey_init short_key empty_world)
  = inl (ValueError BLOCK_LEN_message) /\
  fst (SigningKey_init nines_block empty_world) = inr 0 /\
  objects one_block_world 0 = nines_block.
Proof.
  pose proof (SigningKey_init_validation short_key empty_world) as F.
  pose proof (SigningKey_init_validation nines_block empty_world) as S.
  cbv zeta in F, S.
  destruct F as (_ & _ & _ & F & _). destruct S as (_ & _ & _ & _ & S).
  split.
  - apply F. vm_compute. reflexivity.
  - destruct S as (R & O & _); [vm_compute; reflexivity|].
    split; [exact R | exact O].
Defined.

Lemma get_digest_trits_concat_witness :
  length (objects two_key_world 0) = BLOCK_LEN /\
  length (objects two_key_world 1) = BLOCK_LEN /\
  objects two_key_world 2 = objects two_key_world 0 ++ objects two_key_world 1 /\
  fst (get_digest_trits 2 two_key_world)
  = fst (get_digest_trits 0 two_key_world) ++ fst (get_digest_trits 1 two_key_world) /\
  length (fst (get_digest_trits 2 two_key_world)) = 2 * HASH_LENGTH.
Proof.
  assert (Ha : length (objects two_key_world 0) = BLOCK_LEN)
    by (vm_compute; reflexivity).
  assert (Hb : length (objects two_key_world 1) = BLOCK_LEN)
    by (vm_compute; reflexivity).
  assert (Hab : objects two_key_world 2
                = objects two_key_world 0 ++ objects two_key_world 1)
    by (vm_compute; reflexivity).
  split; [exact Ha|]. split; [exact Hb|]. split; [exact Hab|].
  pose proof (get_digest_trits_concat 0 1 2 two_key_world two_key_world
                two_key_world Ha Hb Hab) as H.
  cbv zeta in H. destruct H as (H & _ & _ & _ & _ & L & _).
  split; [exact H | exact L].
Defined.

Lemma get_digest_trits_deterministic_witness :
  fst (as_trits 0 one_block_world) = fst (as_trits 0 two_key_world) /\
  fst (get_digest_trits 0 one_block_world) = fst (get_digest_trits 0 two_key_world).
Proof.
  assert (E : fst (as_trits 0 one_block_world) = fst (as_trits 0 two_key_world))
    by (vm_compute; reflexivity).
  split; [exact E|].
  exact (get_digest_trits_deterministic 0 0 one_block_world two_key_world E).
Defined.

(** [Seed.random(81, source)] with the all-zero source: 41 bytes are asked
    for, and the seed is their expansion, 82 trytes. *)
Example Seed_random_81 :
  fst (Seed_random 81 zero_source empty_world) = inr 0 /\
  trace (snd (Seed_random 81 zero_source empty_world)) = [Esource 41] /\
  objects (snd (Seed_random 81 zero_source empty_world)) 0
  = flat_map byte_trytes (repeat Byte.x00 41) /\
  length (objects (snd (Seed_random 81 zero_source empty_world)) 0) = 82.
Proof.
  destruct (@Seed_random_exact index_codec 81 zero_source
              (repeat Byte.x00 41) empty_world)
    as (R & T & O & L & _).
  - vm_compute. split; [discriminate | reflexivity].
  - reflexivity.
  - reflexivity.
  - split; [exact R|]. split; [exact T|]. split; [exact O|].
    apply Nat2Z.inj. exact L.
Defined.

Lemma block_count_exact_witness :
  fst (SigningKey_init nines_block empty_world) = inr 0 /\
  fst (block_count 0 one_block_world) * BLOCK_LEN = fst (len 0 one_block_world).
Proof.
  assert (R : fst (SigningKey_init nines_block empty_world) = inr 0)
    by (vm_compute; reflexivity).
  split; [exact R|].
  pose proof (block_count_exact nines_block empty_world R) as H.
  cbv zeta in H. destruct H as (H & _). exact H.
Defined.

End Examples.

(** ** Further properties: keys of several blocks *)

Section MoreListFacts.
Variable A : Type.
Implicit Types (l : list A) (g : nat -> list A).

Lemma slice_app_in_l l1 l2 a b :
  b <= length l1 -> slice (l1 ++ l2) a b = slice l1 a b.
Proof.
  intros Hb. unfold slice.
  rewrite skipn_app, firstn_app, length_skipn.
  replace (b - a - (length l1 - a)) with 0 by lia.
  simpl. apply app_nil_r.
Qed.

Lemma slice_app_in_r l1 l2 a b :
  slice (l1 ++ l2) (length l1 + a) (length l1 + b) = slice l2 a b.
Proof.
  unfold slice. rewrite skipn_app, skipn_all2 by lia.
  replace (length l1 + a - length l1) with a by lia.
  replace (length l1 + b - (length l1 + a)) with (b - a) by lia.
  reflexivity.
Qed.

Lemma chunks_shift g s n : chunks g s n = chunks (fun i => g (s + i)) 0 n.
Proof.
  induction n as [|n IH].
  - reflexivity.
  - rewrite !chunks_S, IH. reflexivity.
Qed.

End MoreListFacts.

Section Blocks.
Context {TC : TernaryCodec} {SH : SpongeHash}.

Lemma BLOCK_LEN_nonzero : BLOCK_LEN <> 0.
Proof. discriminate. Qed.

Lemma valid_key_length w self :
  valid_key w self ->
  length (objects w self) = length (objects w self) / BLOCK_LEN * BLOCK_LEN.
Proof.
  unfold valid_key. intros Hv.
  pose proof (Nat.div_mod_eq (length (objects w self)) BLOCK_LEN) as E.
  rewrite Hv in E. lia.
Qed.

(** X6: the digest of a key made of the blocks of [a] followed by the blocks
    of [b], both valid keys of at least one block, is the digest of [a]
    followed by the digest of [b]; the block counts add up. *)
Theorem get_digest_trits_append a b ab wa wb wab :
  valid_key wa a -> valid_key wb b ->
  1 <= fst (block_count a wa) -> 1 <= fst (block_count b wb) ->
  objects wab ab = objects wa a ++ objects wb b ->
  valid_key wab ab /\
  fst (block_count ab wab) = fst (block_count a wa) + fst (block_count b wb) /\
  fst (get_digest_trits ab wab)
  = fst (get_digest_trits a wa) ++ fst (get_digest_trits b wb).
Proof.
  intros Va Vb. rewrite !block_count_run. cbn [fst]. intros Na Nb Hab.
  pose proof (valid_key_length Va) as La.
  pose proof (valid_key_length Vb) as Lb.
  pose proof (valid_key_trits Va) as Ra.
  pose proof (valid_key_trits Vb) as Rb.
  set (na := length (objects wa a) / BLOCK_LEN) in *.
  set (nb := length (objects wb b) / BLOCK_LEN) in *.
  assert (Lab : length (objects wab ab) = (na + nb) * BLOCK_LEN)
    by (rewrite Hab, length_app; lia).
  assert (Nab : length (objects wab ab) / BLOCK_LEN = na + nb)
    by (rewrite Lab; apply Nat.div_mul, BLOCK_LEN_nonzero).
  split; [|split].
  - unfold valid_key. rewrite Lab. apply Nat.Div0.mod_mul.
  - exact Nab.
  - rewrite !get_digest_trits_value. fold na nb. rewrite Nab.
    rewrite !digest_value_spec by lia.
    rewrite chunks_split, (chunks_shift _ (0 + na) nb).
    rewrite chunks_ext
      with (g' := fun i => spec_block_digest
                            (spec_block (flat_map tryte_trits (objects wa a)) i)).
    rewrite chunks_ext
      with (s := 0) (n := nb)
           (g' := fun i => spec_block_digest
                            (spec_block (flat_map tryte_trits (objects wb b)) i)).
    + reflexivity.
    + intros i Hi. unfold spec_block. rewrite Hab, flat_map_app.
      replace ((0 + na + i) * (BLOCK_LEN * 3))
        with (length (flat_map tryte_trits (objects wa a)) + i * (BLOCK_LEN * 3))
        by (rewrite Ra; lia).
      replace ((0 + na + i + 1) * (BLOCK_LEN * 3))
        with (length (flat_map tryte_trits (objects wa a))
              + (i + 1) * (BLOCK_LEN * 3))
        by (rewrite Ra; lia).
      rewrite slice_app_in_r. reflexivity.
    + intros i Hi. unfold spec_block. rewrite Hab, flat_map_app.
      rewrite slice_app_in_l by (rewrite Ra; nia). reflexivity.
Qed.

(** X7: the digest segment of a block is decided by the trits of that block
    alone: if block [i] of one key has the trits of block [j] of another
    key, segment [i] of the first digest is segment [j] of the second,
    whatever the other blocks and the positions are. *)
Theorem get_digest_trits_block_local k1 k2 w1 w2 i j :
  i < fst (block_count k1 w1) ->
  j < fst (block_count k2 w2) ->
  spec_block (fst (as_trits k1 w1)) i = spec_block (fst (as_trits k2 w2)) j ->
  slice (fst (get_digest_trits k1 w1)) (i * HASH_LENGTH) ((i + 1) * HASH_LENGTH)
  = slice (fst (get_digest_trits k2 w2)) (j * HASH_LENGTH) ((j + 1) * HASH_LENGTH).
Proof.
  rewrite !block_count_run. unfold as_trits. cbn [fst]. intros Hi Hj E.
  rewrite !get_digest_trits_value, !digest_value_spec by lia.
  replace ((i + 1) * HASH_LENGTH) with (S i * HASH_LENGTH) by lia.
  replace ((j + 1) * HASH_LENGTH) with (S j * HASH_LENGTH) by lia.
  rewrite !chunks_slice with (h := HASH_LENGTH);
    try (intros; apply spec_block_digest_length); try assumption.
  now rewrite E.
Qed.

(** X8: two inputs that pass the length check can be joined: construction
    from their concatenation succeeds, and the block count of the new key
    is the sum of the block counts of the two parts. *)
Theorem SigningKey_init_concat (a b : list tryte) w :
  length a mod BLOCK_LEN = 0 -> length b mod BLOCK_LEN = 0 ->
  fst (SigningKey_init (a ++ b) w) = inr (next_object w) /\
  objects (snd (SigningKey_init (a ++ b) w)) (next_object w) = a ++ b /\
  fst (block_count (next_object w) (snd (SigningKey_init (a ++ b) w)))
  = length a / BLOCK_LEN + length b / BLOCK_LEN.
Proof.
  intros Ha Hb.
  pose proof (Nat.div_mod_eq (length a) BLOCK_LEN) as Ea. rewrite Ha in Ea.
  pose proof (Nat.div_mod_eq (length b) BLOCK_LEN) as Eb. rewrite Hb in Eb.
  assert (L : length (a ++ b)
              = (length a / BLOCK_LEN + length b / BLOCK_LEN) * BLOCK_LEN)
    by (rewrite length_app; lia).
  rewrite SigningKey_init_run. cbn [fst snd].
  rewrite block_count_run, TryteString_init_stored. cbn [fst].
  rewrite L, Nat.Div0.mod_mul, Nat.div_mul by apply BLOCK_LEN_nonzero.
  repeat split.
Qed.

End Blocks.

(** ** Further properties: random seeds *)

Section MoreSeeds.
Context {TC : TernaryCodec} {SH : SpongeHash}.

(** Whatever the arguments, a call that returns a seed made one request
    and expanded the bytes it got. *)
Lemma Seed_random_inv min_length source w seed :
  fst (Seed_random min_length source w) = inr seed ->
  seed = next_object w /\
  exists count bytes_,
    source count = inr bytes_ /\
    trace (snd (Seed_random min_length source w)) = trace w ++ [Esource count] /\
    objects (snd (Seed_random min_length source w)) seed
    = flat_map byte_trytes bytes_.
Proof.
  unfold Seed_random.
  destruct (true_div_2 min_length) as [e|num]; [discriminate|].
  unfold bind, log.
  destruct (source (int_ceil_half num)) as [e|bytes_] eqn:Hs; [discriminate|].
  unfold from_bytes, TryteString_init, ret.
  cbn [fst snd objects next_object next_sponge trace].
  intros H. injection H as <-. split; [reflexivity|].
  exists (int_ceil_half num), bytes_.
  rewrite Nat.eqb_refl. repeat split. exact Hs.
Qed.

(** X2: a seed that [Seed.random] returns always has an even number of
    trytes, twice the number of bytes the source gave, whatever minimum
    length was asked for and however many bytes the source chose to give. *)
Theorem Seed_random_even min_length source w seed :
  fst (Seed_random min_length source w) = inr seed ->
  Nat.even (length (objects (snd (Seed_random min_length source w)) seed)) = true /\
  exists count bytes_,
    source count = inr bytes_ /\
    length (objects (snd (Seed_random min_length source w)) seed)
    = 2 * length bytes_.
Proof.
  intros H. destruct (Seed_random_inv _ _ _ H) as (_ & count & bytes_ & Hs & _ & O).
  rewrite O, from_bytes_length. split.
  - rewrite Nat.even_mul. reflexivity.
  - exists count, bytes_. split; [exact Hs | reflexivity].
Qed.

(** X3: a failure of the source comes out of [Seed.random] as it is, after
    the one request, and no seed object is made. *)
Theorem Seed_random_source_error min_length source e w :
  (Z.abs min_length < 2 ^ 53)%Z ->
  source ((min_length + 1) / 2)%Z = inl e ->
  fst (Seed_random min_length source w) = inl e /\
  objects (snd (Seed_random min_length source w)) = objects w /\
  next_object (snd (Seed_random min_length source w)) = next_object w /\
  trace (snd (Seed_random min_length source w))
  = trace w ++ [Esource ((min_length + 1) / 2)%Z].
Proof.
  intros Hl Hs. unfold Seed_random.
  rewrite (true_div_2_exact _ Hl). unfold int_ceil_half, bind, log.
  rewrite Hs. unfold ret. repeat split.
Qed.

Lemma round_to_double_large n :
  (2 ^ 1025 <= Z.abs n)%Z -> (2 ^ 1025 <= Z.abs (round_to_double n))%Z.
Proof.
  intros Hn. unfold round_to_double.
  assert (B : (2 ^ 53 < 2 ^ 1025)%Z) by reflexivity.
  destruct (Z.ltb_spec (Z.abs n) (2 ^ 53)) as [H|_]; [lia|].
  set (a := Z.abs n) in *.
  assert (Ha : (0 < a)%Z) by lia.
  pose proof (Z.log2_spec a Ha) as [Hlo _].
  assert (HL : (1025 <= Z.log2 a)%Z).
  { rewrite <- (Z.log2_pow2 1025) by lia. now apply Z.log2_le_mono. }
  set (e := (Z.log2 a - 52)%Z).
  assert (He : (0 <= e)%Z) by (unfold e; lia).
  assert (P : (2 ^ Z.log2 a = 2 ^ 52 * 2 ^ e)%Z).
  { rewrite <- Z.pow_add_r by lia. f_equal. unfold e. lia. }
  assert (Pe : (0 < 2 ^ e)%Z) by (apply Z.pow_pos_nonneg; lia).
  rewrite Z.shiftr_div_pow2 by exact He.
  set (q := (a / 2 ^ e)%Z).
  assert (Hq : (2 ^ 52 <= q)%Z).
  { apply Z.div_le_lower_bound; [exact Pe|]. lia. }
  match goal with
  | |- context [if ?c then (q + 1)%Z else q] =>
      set (q' := if c then (q + 1)%Z else q);
      assert (Hq' : (q <= q')%Z) by (unfold q'; destruct c; lia)
  end.
  rewrite Z.shiftl_mul_pow2 by exact He.
  assert (M : (2 ^ 1025 <= q' * 2 ^ e)%Z).
  { apply Z.le_trans with (2 ^ Z.log2 a)%Z.
    - apply Z.pow_le_mono_r; lia.
    - rewrite P. apply Z.mul_le_mono_nonneg_r; lia. }
  set (x := (q' * 2 ^ e)%Z) in *.
  destruct (Z.lt_trichotomy n 0) as [N|[N|N]].
  - rewrite Z.sgn_neg by exact N. lia.
  - lia.
  - rewrite Z.sgn_pos by exact N. lia.
Qed.

(** X4: from 2^1025 on the double quotient overflows: [Seed.random] raises
    OverflowError before it asks the source for anything. *)
Theorem Seed_random_overflow min_length source w :
  (2 ^ 1025 <= Z.abs min_length)%Z ->
  Seed_random min_length source w = (inl OverflowError, w).
Proof.
  intros Hn. apply round_to_double_large in Hn.
  unfold Seed_random, true_div_2.
  apply Z.leb_le in Hn. rewrite Hn. reflexivity.
Qed.

(** X5: a random seed used as a signing key has an even number of blocks:
    its tryte length is even and BLOCK_LEN is odd, so a seed from
    [Seed.random] is never a key of exactly one block. *)
Theorem random_key_even_blocks min_length source w seed key :
  fst (Seed_random min_length source w) = inr seed ->
  let w1 := snd (Seed_random min_length source w) in
  fst (SigningKey_init (objects w1 seed) w1) = inr key ->
  let w2 := snd (SigningKey_init (objects w1 seed) w1) in
  Nat.even (fst (block_count key w2)) = true /\
  fst (block_count key w2) <> 1.
Proof.
  intros Hs w1 Hk w2.
  destruct (Seed_random_inv _ _ _ Hs) as (_ & count & bytes_ & _ & _ & O).
  fold w1 in O.
  unfold w2. rewrite SigningKey_init_run in *. cbn [fst snd] in *.
  destruct (length (objects w1 seed) mod BLOCK_LEN =? 0) eqn:E; cbn [negb] in Hk;
    [|discriminate Hk].
  injection Hk as <-. apply Nat.eqb_eq in E.
  rewrite block_count_run, TryteString_init_stored. cbn [fst].
  pose proof (Nat.div_mod_eq (length (objects w1 seed)) BLOCK_LEN) as D.
  rewrite E, O, from_bytes_length in D. rewrite O, from_bytes_length.
  set (q := 2 * length bytes_ / BLOCK_LEN) in *.
  unfold BLOCK_LEN in D.
  destruct (Nat.Even_or_Odd q) as [[k Hq]|[k Hq]].
  - split; [apply Nat.even_spec; now exists k | lia].
  - exfalso. lia.
Qed.

End MoreSeeds.

(** ** The further properties on concrete keys and seeds *)

Section MoreExamples.
#[local] Existing Instance index_codec.
#[local] Existing Instance mirror_sponge.

Lemma get_digest_trits_append_witness :
  objects three_block_world 3
  = objects three_block_world 2 ++ objects three_block_world 0 /\
  fst (block_count 3 three_block_world) = 3 /\
  fst (get_digest_trits 3 three_block_world)
  = fst (get_digest_trits 2 three_block_world)
    ++ fst (get_digest_trits 0 three_block_world).
Proof.
  assert (Va : valid_key three_block_world 2) by (vm_compute; reflexivity).
  assert (Vb : valid_key three_block_world 0) by (vm_compute; reflexivity).
  assert (Na : 1 <= fst (block_count 2 three_block_world))
    by (vm_compute; repeat constructor).
  assert (Nb : 1 <= fst (block_count 0 three_block_world))
    by (vm_compute; repeat constructor).
  assert (Hab : objects three_block_world 3
                = objects three_block_world 2 ++ objects three_block_world 0)
    by (vm_compute; reflexivity).
  destruct (@get_digest_trits_append index_codec mirror_sponge 2 0 3 three_block_world
              three_block_world three_block_world Va Vb Na Nb Hab)
    as (_ & C & D).
  split; [exact Hab|]. split; [|exact D].
  etransitivity; [exact C|]. vm_compute. reflexivity.
Defined.

Lemma get_digest_trits_block_local_witness :
  spec_block (fst (as_trits 0 one_block_world)) 0
  = spec_block (fst (as_trits 3 three_block_world)) 2 /\
  slice (fst (get_digest_trits 0 one_block_world))
        (0 * HASH_LENGTH) ((0 + 1) * HASH_LENGTH)
  = slice (fst (get_digest_trits 3 three_block_world))
          (2 * HASH_LENGTH) ((2 + 1) * HASH_LENGTH).
Proof.
  assert (Hi : 0 < fst (block_count 0 one_block_world))
    by (vm_compute; repeat constructor).
  assert (Hj : 2 < fst (block_count 3 three_block_world))
    by (vm_compute; repeat constructor).
  assert (E : spec_block (fst (as_trits 0 one_block_world)) 0
              = spec_block (fst (as_trits 3 three_block_world)) 2)
    by (vm_compute; reflexivity).
  split; [exact E|].
  exact (@get_digest_trits_block_local index_codec mirror_sponge 0 3 one_block_world
           three_block_world 0 2 Hi Hj E).
Defined.

Lemma SigningKey_init_concat_witness :
  fst (SigningKey_init (nines_block ++ (nines_block ++ letters_block)) empty_world)
  = inr 0 /\
  fst (block_count 0
         (snd (SigningKey_init (nines_block ++ (nines_block ++ letters_block))
                 empty_world)))
  = 3.
Proof.
  destruct (@SigningKey_init_concat index_codec nines_block
              (nines_block ++ letters_block) empty_world) as (R & _ & C).
  - vm_compute. reflexivity.
  - vm_compute. reflexivity.
  - split; [exact R|]. etransitivity; [exact C|]. vm_compute. reflexivity.
Defined.

Lemma Seed_random_even_witness :
  fst (Seed_random 81 zero_source empty_world) = inr 0 /\
  Nat.even (length (objects (snd (Seed_random 81 zero_source empty_world)) 0))
  = true.
Proof.
  assert (R : fst (Seed_random 81 zero_source empty_world) = inr 0)
    by (vm_compute; reflexivity).
  split; [exact R|].
  exact (proj1 (@Seed_random_even index_codec 81 zero_source empty_world 0 R)).
Defined.

Lemma Seed_random_source_error_witness :
  fst (Seed_random 81 failing_source empty_world)
  = inl (SourceError "no entropy") /\
  next_object (snd (Seed_random 81 failing_source empty_world)) = 0 /\
  trace (snd (Seed_random 81 failing_source empty_world)) = [Esource 41].
Proof.
  destruct (@Seed_random_source_error index_codec 81 failing_source
              (SourceError "no entropy") empty_world) as (R & _ & N & T).
  - vm_compute. reflexivity.
  - reflexivity.
  - split; [exact R|]. split; [exact N | exact T].
Defined.

Lemma Seed_random_overflow_witness :
  Seed_random (2 ^ 1025) zero_source empty_world = (inl OverflowError, empty_world).
Proof.
  apply Seed_random_overflow. vm_compute. discriminate.
Defined.

Lemma random_key_even_blocks_witness :
  fst (Seed_random 4374 zero_source empty_world) = inr 0 /\
  fst (SigningKey_init
         (objects (snd (Seed_random 4374 zero_source empty_world)) 0)
         (snd (Seed_random 4374 zero_source empty_world))) = inr 1 /\
  Nat.even
    (fst (block_count 1
            (snd (SigningKey_init
                    (objects (snd (Seed_random 4374 zero_source empty_world)) 0)
                    (snd (Seed_random 4374 zero_source empty_world))))))
  = true.
Proof.
  assert (R : fst (Seed_random 4374 zero_source empty_world) = inr 0)
    by (vm_compute; reflexivity).
  assert (K : fst (SigningKey_init
                     (objects (snd (Seed_random 4374 zero_source empty_world)) 0)
                     (snd (Seed_random 4374 zero_source empty_world))) = inr 1)
    by (vm_compute; reflexivity).
  split; [exact R|]. split; [exact K|].
  exact (proj1 (@random_key_even_blocks index_codec 4374 zero_source empty_world
                  0 1 R K)).
Defined.

End MoreExamples.
